(** * kiam: the [when!] macro

    A shallow embedding of [src/src/lib.rs].  The macro is a single
    [macro_rules!] arm:

<<
    ( $( $(let $pat:pat = )? $cond:expr => $branch:expr ),+
      $(, _ => $def_branch:expr)?
      $(,)? )
    =>
    { $( if $(let $pat = )? $cond { $branch } else )+ { $( $def_branch )? } }
>>

    The development follows the macro through the compiler:
    - [parse] is the matcher of the arm, over a token stream in which the
      fragments [$pat:pat] and [$cond:expr] / [$branch:expr] are opaque
      single tokens (the host grammar parses them, not the macro);
    - [emit] is the transcriber: the flat [if .. else] segments followed by the
      final block;
    - [nest] is the host's reading of [if a {..} else if b {..} else {..}] as
      a right-nested conditional;
    - [run_chain] is the host's evaluation of that conditional, for an
      arbitrary host expression evaluator threading a store. *)

From Stdlib Require Import List String ZArith Lia.
Import ListNotations.
Open Scope list_scope.

(** ** Host values and environments *)

(** The values the examples and tests of the crate manipulate. *)
Inductive value : Type :=
| VUnit
| VBool (b : bool)
| VInt (z : Z)
| VNone
| VSome (v : value).

(** Variables in scope, innermost binding first. *)
Definition env : Type := list (string * value).

(** ** Syntax of a [when!] invocation *)

Section Syntax.
Context {expr pat : Type}.

(** Guard of a [line]: [$cond] alone, or [let $pat = $cond]. *)
Inductive guard : Type :=
| BooleanGuard (cond : expr)
| DestructureGuard (p : pat) (cond : expr).

Record clause : Type := Clause { cl_guard : guard; cl_body : expr }.

(** The expression evaluated by a guard (boolean condition or destructure
    target). *)
Definition guard_expr (g : guard) : expr :=
  match g with
  | BooleanGuard c => c
  | DestructureGuard _ c => c
  end.

(** The guard expressions of a clause list, in textual order. *)
Definition guard_exprs (cls : list clause) : list expr :=
  map (fun c => guard_expr (cl_guard c)) cls.

(** Tokens as the matcher sees them.  [TExpr] is one [$x:expr] fragment and
    [TPat] one [$pat:pat] fragment; [TUnder] is the bare [_] token, which
    cannot begin an expression fragment. *)
Inductive token : Type :=
| TLet
| TPat (p : pat)
| TEq
| TExpr (e : expr)
| TArrow
| TComma
| TUnder.

(** The part of the input after the first [line]:
    [("," line)* ("," "_" "=>" expr)? ","?]. *)
Fixpoint parse_tail (toks : list token) : option (list clause * option expr) :=
  match toks with
  | [] => Some ([], None)
  | [TComma] => Some ([], None)
  | [TComma; TUnder; TArrow; TExpr d] => Some ([], Some d)
  | [TComma; TUnder; TArrow; TExpr d; TComma] => Some ([], Some d)
  | TComma :: TLet :: TPat p :: TEq :: TExpr c :: TArrow :: TExpr b :: rest =>
      match parse_tail rest with
      | Some (cls, d) => Some (Clause (DestructureGuard p c) b :: cls, d)
      | None => None
      end
  | TComma :: TExpr c :: TArrow :: TExpr b :: rest =>
      match parse_tail rest with
      | Some (cls, d) => Some (Clause (BooleanGuard c) b :: cls, d)
      | None => None
      end
  | _ => None
  end.

(** The matcher of the arm: one mandatory [line] (the [+] repetition),
    then [parse_tail].  [None] is the macro's "no rules expected this
    token" error. *)
Definition parse (toks : list token) : option (list clause * option expr) :=
  match toks with
  | TLet :: TPat p :: TEq :: TExpr c :: TArrow :: TExpr b :: rest =>
      match parse_tail rest with
      | Some (cls, d) => Some (Clause (DestructureGuard p c) b :: cls, d)
      | None => None
      end
  | TExpr c :: TArrow :: TExpr b :: rest =>
      match parse_tail rest with
      | Some (cls, d) => Some (Clause (BooleanGuard c) b :: cls, d)
      | None => None
      end
  | _ => None
  end.

(** Tokens of one [line]. *)
Definition line_tokens (c : clause) : list token :=
  match cl_guard c with
  | BooleanGuard e => [TExpr e; TArrow; TExpr (cl_body c)]
  | DestructureGuard p e => [TLet; TPat p; TEq; TExpr e; TArrow; TExpr (cl_body c)]
  end.

(** Tokens of [parse_tail]'s input; [tc] is the optional trailing comma. *)
Definition tail_tokens (cls : list clause) (d : option expr) (tc : bool)
  : list token :=
  flat_map (fun c => TComma :: line_tokens c) cls
  ++ match d with Some e => [TComma; TUnder; TArrow; TExpr e] | None => [] end
  ++ (if tc then [TComma] else []).

(** Whether two separators [,] stand next to each other somewhere. *)
Fixpoint adjacent_commas (toks : list token) : bool :=
  match toks with
  | TComma :: TComma :: _ => true
  | _ :: rest => adjacent_commas rest
  | [] => false
  end.

(** ** The transcriber *)

(** One piece of the expansion: [if $(let $pat =)? $cond { $branch } else]
    (one per repetition) or the final [{ $( $def_branch )? }]. *)
Inductive segment : Type :=
| SIfElse (g : guard) (branch : expr)
| SBlock (def : option expr).

Definition emit (cls : list clause) (d : option expr) : list segment :=
  map (fun c => SIfElse (cl_guard c) (cl_body c)) cls ++ [SBlock d].

(** The conditional the host reads from the segments. *)
Inductive chain : Type :=
| OIf (g : guard) (branch : expr) (els : chain)
| OBlock (def : option expr).

(** [if g { b } else REST], where [REST] is an [if] or a block. *)
Fixpoint nest (segs : list segment) : option chain :=
  match segs with
  | [SBlock d] => Some (OBlock d)
  | SIfElse g b :: rest =>
      match nest rest with
      | Some ch => Some (OIf g b ch)
      | None => None
      end
  | _ => None
  end.

(** The whole macro: match, transcribe, and the host's reading of the
    output.  [None] means the invocation is rejected and nothing is
    emitted. *)
Definition when (toks : list token) : option chain :=
  match parse toks with
  | Some (cls, d) => nest (emit cls d)
  | None => None
  end.

(** The right fold of §4.2 / §9: default-or-unit innermost, clause 1
    outermost. *)
Definition wrap (c : clause) (acc : chain) : chain :=
  OIf (cl_guard c) (cl_body c) acc.

Definition fold_chain (cls : list clause) (d : option expr) : chain :=
  fold_right wrap (OBlock d) cls.
End Syntax.

Arguments guard : clear implicits.
Arguments clause : clear implicits.
Arguments token : clear implicits.
Arguments segment : clear implicits.
Arguments chain : clear implicits.

(** ** Host semantics of the emitted conditional *)

Section Host.
Context {expr pat store : Type}.

(** The host's evaluation of an expression in scope [rho]: a value and the
    store after the expression's side effects. *)
Variable eval : env -> expr -> store -> value * store.

(** The host's pattern matcher: the bindings of a successful match. *)
Variable match_pat : pat -> value -> option env.

(** Test of one guard: [Some (Some bs, s')] when it succeeds binding [bs]
    (none for a boolean guard), [Some (None, s')] when it fails, [None] for
    a non-boolean condition, which the host's type checker rejects. *)
Definition guard_test (rho : env) (g : guard expr pat) (s : store)
  : option (option env * store) :=
  match g with
  | BooleanGuard c =>
      let (v, s1) := eval rho c s in
      match v with
      | VBool true => Some (Some [], s1)
      | VBool false => Some (None, s1)
      | _ => None
      end
  | DestructureGuard p c =>
      let (v, s1) := eval rho c s in
      Some (match_pat p v, s1)
  end.

(** [if $(let $pat =)? $cond { $branch } else ...]: the branch sees the
    pattern's bindings in front of [rho]; the [else] part sees [rho]. *)
Fixpoint run_chain (rho : env) (ch : chain expr pat) (s : store)
  : option (value * store) :=
  match ch with
  | OBlock None => Some (VUnit, s)
  | OBlock (Some d) => Some (eval rho d s)
  | OIf g b rest =>
      match guard_test rho g s with
      | Some (Some bs, s1) => Some (eval (bs ++ rho) b s1)
      | Some (None, s1) => run_chain rho rest s1
      | None => None
      end
  end.

(** Guards of [cls], tested in order, all failing: the store after the
    last one, or [None] if one succeeds or is ill-typed. *)
Fixpoint fails_all (rho : env) (cls : list (clause expr pat)) (s : store)
  : option store :=
  match cls with
  | [] => Some s
  | c :: cs =>
      match guard_test rho (cl_guard c) s with
      | Some (None, s1) => fails_all rho cs s1
      | _ => None
      end
  end.

(** The reference semantics of §4.2 of the spec, in its own words: for
    clause 1..N in order, test the guard; on success evaluate the body with
    the bindings and stop; otherwise go on; when no clause is left, the
    default if present, else the unit value. *)
Fixpoint reference_eval (rho : env) (cls : list (clause expr pat))
  (d : option expr) (s : store) : option (value * store) :=
  match cls with
  | [] =>
      match d with
      | Some e => Some (eval rho e s)
      | None => Some (VUnit, s)
      end
  | c :: cs =>
      match guard_test rho (cl_guard c) s with
      | Some (Some bs, s1) => Some (eval (bs ++ rho) (cl_body c) s1)
      | Some (None, s1) => reference_eval rho cs d s1
      | None => None
      end
  end.

(** Running the expansion of a clause list. *)
Definition run_expansion (rho : env) (cls : list (clause expr pat))
  (d : option expr) (s : store) : option (value * store) :=
  match nest (emit cls d) with
  | Some ch => run_chain rho ch s
  | None => None
  end.

(** Running the expansion of a token stream; [None] when the macro rejects
    it. *)
Definition run_when (rho : env) (toks : list (token expr pat)) (s : store)
  : option (value * store) :=
  match when toks with
  | Some ch => run_chain rho ch s
  | None => None
  end.
End Host.

(** ** Counting evaluations

    [traced eval] is the host evaluator [eval] with a log of every
    expression it is asked to evaluate, appended in evaluation order.  It
    observes how often, and in which order, guards and bodies are evaluated. *)
Definition traced {expr store : Type}
  (eval : env -> expr -> store -> value * store)
  (rho : env) (e : expr) (st : store * list expr) : value * (store * list expr) :=
  let (v, s') := eval rho e (fst st) in (v, (s', snd st ++ [e])).

(** ** A small host language for the crate's tests

    Just enough of Rust to write the tests of [lib.rs]: literals, variables,
    [e + z], [Some e], the statements [x = e] and [x += z] on one mutable
    local [x], and [{ count += 1; e }], a guard that counts its own
    evaluations.  The store is [(x, count)]. *)
Module Mini.
Inductive hexpr : Type :=
| HLit (v : value)
| HVar (x : string)
| HAdd (e : hexpr) (z : Z)
| HSome (e : hexpr)
| HAssign (e : hexpr)
| HAddAssign (z : Z)
| HCount (e : hexpr).

(** [Some(x)] or [Some(_)]. *)
Inductive hpat : Type :=
| PSome (x : option string).

Definition store : Type := (Z * nat)%type.

Fixpoint lookup (x : string) (rho : env) : value :=
  match rho with
  | [] => VUnit
  | (y, v) :: rho' => if String.eqb x y then v else lookup x rho'
  end.

Fixpoint heval (rho : env) (e : hexpr) (s : store) : value * store :=
  match e with
  | HLit v => (v, s)
  | HVar x => (lookup x rho, s)
  | HAdd e z =>
      let (v, s1) := heval rho e s in
      match v with
      | VInt n => (VInt (n + z)%Z, s1)
      | _ => (VUnit, s1)
      end
  | HSome e => let (v, s1) := heval rho e s in (VSome v, s1)
  | HAssign e =>
      let (v, s1) := heval rho e s in
      match v with
      | VInt n => (VUnit, (n, snd s1))
      | _ => (VUnit, s1)
      end
  | HAddAssign z => (VUnit, ((fst s + z)%Z, snd s))
  | HCount e => heval rho e (fst s, S (snd s))
  end.

Definition hmatch (p : hpat) (v : value) : option env :=
  match p, v with
  | PSome None, VSome _ => Some []
  | PSome (Some x), VSome w => Some [(x, w)]
  | _, _ => None
  end.

Definition bool_lit (b : bool) : hexpr := HLit (VBool b).
Definition int_lit (z : Z) : hexpr := HLit (VInt z).
Definition none_lit : hexpr := HLit VNone.

Definition tok : Type := token hexpr hpat.

(** [tests::it_works]:
    [false => 0, true => 1, true => 2, _ => 42,] *)
Definition it_works : list tok :=
  [TExpr (bool_lit false); TArrow; TExpr (int_lit 0); TComma;
   TExpr (bool_lit true); TArrow; TExpr (int_lit 1); TComma;
   TExpr (bool_lit true); TArrow; TExpr (int_lit 2); TComma;
   TUnder; TArrow; TExpr (int_lit 42); TComma].

(** [tests::no_def]: [false => x = 18, true => x += 1] *)
Definition no_def : list tok :=
  [TExpr (bool_lit false); TArrow; TExpr (HAssign (int_lit 18)); TComma;
   TExpr (bool_lit true); TArrow; TExpr (HAddAssign 1)].

(** §8: guards [false, false, true, true], bodies [0, 1, 2, 3]. *)
Definition order4 : list tok :=
  [TExpr (bool_lit false); TArrow; TExpr (int_lit 0); TComma;
   TExpr (bool_lit false); TArrow; TExpr (int_lit 1); TComma;
   TExpr (bool_lit true); TArrow; TExpr (int_lit 2); TComma;
   TExpr (bool_lit true); TArrow; TExpr (int_lit 3)].

(** Documentation example: [false => 0, _ => 1,] *)
Definition default_doc : list tok :=
  [TExpr (bool_lit false); TArrow; TExpr (int_lit 0); TComma;
   TUnder; TArrow; TExpr (int_lit 1); TComma].

(** §8 "mixed guard kinds":
    [false => 0, let Some(x) = None => x, let Some(y) = Some(12) => y + 1,
     true => 1, _ => 0] *)
Definition mixed : list tok :=
  [TExpr (bool_lit false); TArrow; TExpr (int_lit 0); TComma;
   TLet; TPat (PSome (Some "x"%string)); TEq; TExpr none_lit; TArrow;
     TExpr (HVar "x"); TComma;
   TLet; TPat (PSome (Some "y"%string)); TEq; TExpr (HSome (int_lit 12)); TArrow;
     TExpr (HAdd (HVar "y") 1); TComma;
   TExpr (bool_lit true); TArrow; TExpr (int_lit 1); TComma;
   TUnder; TArrow; TExpr (int_lit 0)].

(** A counting guard after a failing one and before an unreachable one:
    [false => 0, { count += 1; true } => 1, { count += 1; true } => 2] *)
Definition counted : list tok :=
  [TExpr (bool_lit false); TArrow; TExpr (int_lit 0); TComma;
   TExpr (HCount (bool_lit true)); TArrow; TExpr (int_lit 1); TComma;
   TExpr (HCount (bool_lit true)); TArrow; TExpr (int_lit 2)].

(** The default clause in first position: [_ => 1, true => 0] *)
Definition default_first : list tok :=
  [TUnder; TArrow; TExpr (int_lit 1); TComma;
   TExpr (bool_lit true); TArrow; TExpr (int_lit 0)].

Definition run (toks : list tok) (s : store) : option (value * store) :=
  run_when heval hmatch [] toks s.

(** Clause-level views of the inputs above. *)
Definition bclause (g : bool) (z : Z) : clause hexpr hpat :=
  Clause (BooleanGuard (bool_lit g)) (int_lit z).

Definition some_x_none : clause hexpr hpat :=
  Clause (DestructureGuard (PSome (Some "x"%string)) none_lit) (HVar "x").

Definition some_y_12 : clause hexpr hpat :=
  Clause (DestructureGuard (PSome (Some "y"%string)) (HSome (int_lit 12)))
    (HAdd (HVar "y") 1).

Definition counted_clauses : list (clause hexpr hpat) :=
  [bclause false 0;
   Clause (BooleanGuard (HCount (bool_lit true))) (int_lit 1);
   Clause (BooleanGuard (HCount (bool_lit true))) (int_lit 2)].

(** [false => 0] alone: accepted, no default. *)
Definition lone_false : list tok :=
  [TExpr (bool_lit false); TArrow; TExpr (int_lit 0)].

Definition s0 : store := (0%Z, O).

(** [tests::pattern]:
    [let Some(x) = None => x, let Some(y) = Some(12) => y + 1, _ => 0,] *)
Definition pattern : list tok :=
  [TLet; TPat (PSome (Some "x"%string)); TEq; TExpr none_lit; TArrow;
     TExpr (HVar "x"); TComma;
   TLet; TPat (PSome (Some "y"%string)); TEq; TExpr (HSome (int_lit 12)); TArrow;
     TExpr (HAdd (HVar "y") 1); TComma;
   TUnder; TArrow; TExpr (int_lit 0); TComma].

(** [tests::mixed], as written in the source:
    [false => 0, let Some(_) = None::<bool> => 0,
     let Some(y) = Some(12) => y + 1, true => 1, _ => 0,] *)
Definition mixed_src : list tok :=
  [TExpr (bool_lit false); TArrow; TExpr (int_lit 0); TComma;
   TLet; TPat (PSome None); TEq; TExpr none_lit; TArrow; TExpr (int_lit 0); TComma;
   TLet; TPat (PSome (Some "y"%string)); TEq; TExpr (HSome (int_lit 12)); TArrow;
     TExpr (HAdd (HVar "y") 1); TComma;
   TExpr (bool_lit true); TArrow; TExpr (int_lit 1); TComma;
   TUnder; TArrow; TExpr (int_lit 0); TComma].
End Mini.

(** ** Tests of the crate, run on the embedding *)

Example it_works_test : option_map fst (Mini.run Mini.it_works (0%Z, O)) = Some (VInt 1).
Proof. reflexivity. Qed.

Example no_def_test : Mini.run Mini.no_def (0%Z, O) = Some (VUnit, (1%Z, O)).
Proof. reflexivity. Qed.

Example mixed_test : option_map fst (Mini.run Mini.mixed (0%Z, O)) = Some (VInt 13).
Proof. reflexivity. Qed.

Example default_first_test : Mini.run Mini.default_first (0%Z, O) = None.
Proof. reflexivity. Qed.

(** ** The matcher and the token streams it accepts *)

(** Case analysis on the matcher's nested patterns. *)
Ltac crush_match H :=
  repeat match type of H with
  | match parse_tail ?r with _ => _ end = _ =>
      let E := fresh "E" in
      destruct (parse_tail r) as [[? ?]|] eqn:E; [|discriminate H]
  | match ?x with _ => _ end = _ => destruct x; try discriminate H
  end.

Section ParseFacts.
Context {expr pat : Type}.

(** Every input [parse_tail] accepts is the rendering of its result, up to
    the trailing comma. *)
Lemma parse_tail_sound :
  forall (toks : list (token expr pat)) cls d,
    parse_tail toks = Some (cls, d) -> exists tc, toks = tail_tokens cls d tc.
Proof.
  fix IH 1. intros toks cls d H.
  destruct toks as [|t toks]; simpl in H.
  - injection H as <- <-. exists false. reflexivity.
  - crush_match H;
      try (injection H as <- <-;
           first [ exists false; reflexivity | exists true; reflexivity ]);
      injection H as <- <-;
      match goal with
      | E : parse_tail ?r = Some _ |- _ =>
          destruct (IH r _ _ E) as [tc ->]; exists tc; reflexivity
      end.
Qed.

Lemma parse_tail_complete :
  forall (cls : list (clause expr pat)) d tc,
    parse_tail (tail_tokens cls d tc) = Some (cls, d).
Proof.
  induction cls as [|[[e|p e] b] cls IH]; intros d tc.
  - destruct d, tc; reflexivity.
  - simpl. unfold tail_tokens in IH. rewrite IH. reflexivity.
  - simpl. unfold tail_tokens in IH. rewrite IH. reflexivity.
Qed.

Lemma parse_sound :
  forall (toks : list (token expr pat)) cls d,
    parse toks = Some (cls, d) ->
    exists c cls' tc, cls = c :: cls' /\
      toks = line_tokens c ++ tail_tokens cls' d tc.
Proof.
  intros toks cls d H. unfold parse in H.
  crush_match H; injection H as <- <-;
    match goal with
    | E : parse_tail ?r = Some _ |- _ =>
        destruct (parse_tail_sound r _ _ E) as [tc ->]
    end;
    eexists; eexists; exists tc; split; reflexivity.
Qed.

Lemma parse_complete :
  forall (c : clause expr pat) cls d tc,
    parse (line_tokens c ++ tail_tokens cls d tc) = Some (c :: cls, d).
Proof.
  intros [[e|p e] b] cls d tc;
    pose proof (parse_tail_complete cls d tc) as E; unfold tail_tokens in *;
    simpl; rewrite E; reflexivity.
Qed.

Lemma nest_emit :
  forall (cls : list (clause expr pat)) d,
    nest (emit cls d) = Some (fold_chain cls d).
Proof.
  induction cls as [|c cls IH]; intros d; [reflexivity|].
  unfold emit in *. simpl. rewrite IH. reflexivity.
Qed.

Lemma when_parse :
  forall (toks : list (token expr pat)) cls d,
    parse toks = Some (cls, d) -> when toks = Some (fold_chain cls d).
Proof.
  intros toks cls d H. unfold when. rewrite H. apply nest_emit.
Qed.

Lemma under_not_in_line :
  forall (c : clause expr pat), ~ In TUnder (line_tokens c).
Proof.
  intros [[e|p e] b]; simpl; intuition discriminate.
Qed.

Lemma under_not_in_lines :
  forall (cls : list (clause expr pat)),
    ~ In TUnder (flat_map (fun c => TComma :: line_tokens c) cls).
Proof.
  intros cls Hin. apply in_flat_map in Hin as [c [_ [Hc|Hc]]];
    [discriminate | exact (under_not_in_line c Hc)].
Qed.

(** Splitting a list at an occurrence of an element that occurs once on
    the right-hand side. *)
Lemma split_at_unique {A : Type} (x : A) :
  forall r1 l1 l2 r2, ~ In x r1 -> ~ In x r2 ->
    l1 ++ x :: l2 = r1 ++ x :: r2 -> l2 = r2.
Proof.
  induction r1 as [|b r1 IH]; intros l1 l2 r2 H1 H2 E;
    destruct l1 as [|a l1]; simpl in *.
  - injection E as E. exact E.
  - injection E as -> E. exfalso. apply H2. rewrite <- E.
    apply in_or_app. right. left. reflexivity.
  - injection E as -> _. exfalso. apply H1. left. reflexivity.
  - injection E as -> E. apply (IH l1 l2 r2); [tauto | tauto | exact E].
Qed.

Lemma tail_tokens_comma :
  forall (cls : list (clause expr pat)) d,
    tail_tokens cls d false ++ [TComma] = tail_tokens cls d true.
Proof.
  intros cls d. unfold tail_tokens. rewrite app_nil_r, <- app_assoc. reflexivity.
Qed.
End ParseFacts.

(** ** Evaluation of the expansion *)

Section Semantics.
Context {expr pat store : Type}.
Variable eval : env -> expr -> store -> value * store.
Variable match_pat : pat -> value -> option env.

Lemma run_expansion_fold :
  forall rho (cls : list (clause expr pat)) d s,
    run_expansion eval match_pat rho cls d s
    = run_chain eval match_pat rho (fold_chain cls d) s.
Proof.
  intros. unfold run_expansion. rewrite nest_emit. reflexivity.
Qed.

Lemma run_fold_reference :
  forall rho (cls : list (clause expr pat)) d s,
    run_chain eval match_pat rho (fold_chain cls d) s
    = reference_eval eval match_pat rho cls d s.
Proof.
  intros rho cls d. unfold fold_chain.
  induction cls as [|c cls IH]; intros s.
  - destruct d; reflexivity.
  - cbn [fold_right wrap run_chain reference_eval].
    destruct (guard_test eval match_pat rho (cl_guard c) s) as [[[bs|] s1]|];
      [reflexivity | apply IH | reflexivity].
Qed.

(** A prefix of failing clauses only threads the store. *)
Lemma run_after_failing_prefix :
  forall rho (pre rest : list (clause expr pat)) d s s1,
    fails_all eval match_pat rho pre s = Some s1 ->
    run_chain eval match_pat rho (fold_chain (pre ++ rest) d) s
    = run_chain eval match_pat rho (fold_chain rest d) s1.
Proof.
  intros rho pre rest d. unfold fold_chain.
  induction pre as [|c pre IH]; intros s s1 H.
  - injection H as ->. reflexivity.
  - cbn [fold_right wrap run_chain app fails_all] in *.
    destruct (guard_test eval match_pat rho (cl_guard c) s) as [[[bs|] s']|];
      try discriminate H.
    apply IH. exact H.
Qed.

(** The traced evaluator logs the guard's expression once. *)
Lemma guard_test_traced :
  forall rho (g : guard expr pat) s tr,
    guard_test (traced eval) match_pat rho g (s, tr)
    = match guard_test eval match_pat rho g s with
      | Some (o, s1) => Some (o, (s1, tr ++ [guard_expr g]))
      | None => None
      end.
Proof.
  intros rho [c|p c] s tr; unfold guard_test, traced; simpl;
    destruct (eval rho c s) as [v s1]; simpl;
    try reflexivity.
  destruct v as [| [|] | | |]; reflexivity.
Qed.
(** A failing prefix, under the traced evaluator, logs each of its guard
    expressions once, in order. *)
Lemma fails_all_traced :
  forall rho (pre : list (clause expr pat)) s tr s1,
    fails_all eval match_pat rho pre s = Some s1 ->
    fails_all (traced eval) match_pat rho pre (s, tr)
    = Some (s1, tr ++ guard_exprs pre).
Proof.
  intros rho pre. induction pre as [|c pre IH]; intros s tr s1 H.
  - injection H as <-. simpl. rewrite app_nil_r. reflexivity.
  - cbn [fails_all] in *. rewrite guard_test_traced.
    destruct (guard_test eval match_pat rho (cl_guard c) s) as [[[bs|] s']|];
      try discriminate H.
    rewrite (IH s' _ s1 H). unfold guard_exprs. cbn [map].
    rewrite <- app_assoc. reflexivity.
Qed.
End Semantics.

(** ** The claims *)

Section Claims.
Context {expr pat store : Type}.
Variable eval : env -> expr -> store -> value * store.
Variable match_pat : pat -> value -> option env.

(** C1 (first success wins): when the guards of the clauses [pre] all fail
    and the guard of clause [c] then succeeds with bindings [bs], the
    expansion yields the value of [c]'s body, evaluated right after that
    guard, and the final store is the one that body leaves: nothing of
    [rest] nor of the default is evaluated (they do not even occur on the
    right-hand side). *)
Theorem first_success_wins :
  forall rho (pre : list (clause expr pat)) c rest d s s1 bs s2,
    fails_all eval match_pat rho pre s = Some s1 ->
    guard_test eval match_pat rho (cl_guard c) s1 = Some (Some bs, s2) ->
    run_expansion eval match_pat rho (pre ++ c :: rest) d s
    = Some (eval (bs ++ rho) (cl_body c) s2).
Proof.
  intros rho pre c rest d s s1 bs s2 Hpre Hc.
  rewrite run_expansion_fold, (run_after_failing_prefix _ _ _ _ _ _ _ _ Hpre).
  unfold fold_chain. cbn [fold_right wrap run_chain].
  rewrite Hc. reflexivity.
Qed.

(** C3 (fallback): when every guard fails, the expansion yields the default
    body evaluated in the store the guards left, or, without a default, the
    unit value with that very store: no further effect and no error. *)
Theorem fallback_when_all_fail :
  forall rho (cls : list (clause expr pat)) d s s1,
    fails_all eval match_pat rho cls s = Some s1 ->
    run_expansion eval match_pat rho cls d s
    = match d with
      | Some e => Some (eval rho e s1)
      | None => Some (VUnit, s1)
      end.
Proof.
  intros rho cls d s s1 H.
  rewrite run_expansion_fold.
  rewrite <- (app_nil_r cls), (run_after_failing_prefix _ _ _ _ _ _ _ _ H).
  destruct d; reflexivity.
Qed.

(** C5 (destructure binding scope): for a [let p = e => b] clause reached
    after the failing clauses [pre], the target [e] is evaluated in the
    construct's own scope [rho]; on a match the body runs with the
    pattern's bindings in front of [rho]; on a mismatch the remaining
    clauses and the default run in [rho] itself, with no binding of [p]. *)
Theorem destructure_binding_scope :
  forall rho (pre : list (clause expr pat)) p e b rest d s s1 v s2,
    fails_all eval match_pat rho pre s = Some s1 ->
    eval rho e s1 = (v, s2) ->
    run_expansion eval match_pat rho
      (pre ++ Clause (DestructureGuard p e) b :: rest) d s
    = match match_pat p v with
      | Some bs => Some (eval (bs ++ rho) b s2)
      | None => run_expansion eval match_pat rho rest d s2
      end.
Proof.
  intros rho pre p e b rest d s s1 v s2 Hpre He.
  rewrite !run_expansion_fold, (run_after_failing_prefix _ _ _ _ _ _ _ _ Hpre).
  unfold fold_chain. cbn [fold_right wrap run_chain cl_guard cl_body].
  unfold guard_test. rewrite He.
  destruct (match_pat p v); reflexivity.
Qed.

(** C7 (right fold): the chain the macro emits for an accepted input is the
    right fold of [wrap] over the clauses starting from the final block
    (the default, or the empty block), and it evaluates exactly as the
    left-to-right reference semantics of §4.2. *)
Theorem right_fold_expansion :
  forall (toks : list (token expr pat)) cls d,
    parse toks = Some (cls, d) ->
    when toks = Some (fold_right wrap (OBlock d) cls) /\
    forall rho s,
      run_chain eval match_pat rho (fold_right wrap (OBlock d) cls) s
      = reference_eval eval match_pat rho cls d s.
Proof.
  intros toks cls d H. split.
  - exact (when_parse toks cls d H).
  - intros rho s. exact (run_fold_reference eval match_pat rho cls d s).
Qed.

(** C8, as amended: the expander does not know where it is used.  For any
    input without a default it succeeds, emitting the chain whose final
    block is the empty one, and when every guard fails that chain yields
    the unit value (in the store the guards left). *)
Theorem no_default_unit_fallback :
  forall (toks : list (token expr pat)) cls,
    parse toks = Some (cls, None) ->
    when toks = Some (fold_chain cls None) /\
    forall rho s s1,
      fails_all eval match_pat rho cls s = Some s1 ->
      run_chain eval match_pat rho (fold_chain cls None) s = Some (VUnit, s1).
Proof.
  intros toks cls H. split.
  - exact (when_parse toks cls None H).
  - intros rho s s1 Hf.
    rewrite <- (app_nil_r cls), (run_after_failing_prefix _ _ _ _ _ _ _ _ Hf).
    reflexivity.
Qed.

(** C10: when no guard succeeds, the log of the traced evaluation is each
    clause's guard expression exactly once, in textual order, then the
    default body if there is one; no clause body is evaluated. *)
Theorem all_fail_trace :
  forall rho (cls : list (clause expr pat)) d s tr s1,
    fails_all eval match_pat rho cls s = Some s1 ->
    run_expansion (traced eval) match_pat rho cls d (s, tr)
    = match d with
      | Some e =>
          let (v, s2) := eval rho e s1 in
          Some (v, (s2, tr ++ guard_exprs cls ++ [e]))
      | None => Some (VUnit, (s1, tr ++ guard_exprs cls))
      end.
Proof.
  intros rho cls d s tr s1 H. rewrite run_expansion_fold.
  revert s tr s1 H. unfold fold_chain.
  induction cls as [|c cls IH]; intros s tr s1 H.
  - injection H as <-. simpl. rewrite app_nil_r.
    destruct d as [e|]; [|reflexivity].
    unfold traced. simpl. destruct (eval rho e s). reflexivity.
  - cbn [fold_right wrap run_chain fails_all] in *.
    rewrite guard_test_traced.
    destruct (guard_test eval match_pat rho (cl_guard c) s) as [[[bs|] s']|];
      try discriminate H.
    rewrite (IH s' _ s1 H). unfold guard_exprs. cbn [map].
    destruct d as [e|]; [destruct (eval rho e s1)|];
      rewrite <- app_assoc; reflexivity.
Qed.

(** C2: in every run, the log of the traced evaluation is the guard
    expressions of the first [j] clauses, each exactly once and in order,
    followed by at most one body (of a clause, or the default): no guard is
    evaluated twice and none after the first success. *)
Theorem guard_evaluated_at_most_once :
  forall rho (cls : list (clause expr pat)) d s tr v s' tr',
    run_expansion (traced eval) match_pat rho cls d (s, tr) = Some (v, (s', tr')) ->
    exists j tail,
      j <= List.length cls /\
      tr' = tr ++ guard_exprs (firstn j cls) ++ tail /\
      (tail = [] \/ (exists c, In c cls /\ tail = [cl_body c])
       \/ (exists e, d = Some e /\ tail = [e])).
Proof.
  intros rho cls d s tr v s' tr' H. rewrite run_expansion_fold in H.
  revert s tr v s' tr' H. unfold fold_chain.
  induction cls as [|c cls IH]; intros s tr v s' tr' H.
  - exists 0. cbn [fold_right run_chain] in H.
    destruct d as [e|].
    + unfold traced in H. simpl in H. destruct (eval rho e s).
      injection H as <- <- <-. exists [e]. simpl.
      repeat split; [lia | right; right; eauto].
    + injection H as <- <- <-. exists []. simpl.
      rewrite app_nil_r. repeat split; [lia | left; reflexivity].
  - cbn [fold_right wrap run_chain] in H.
    rewrite guard_test_traced in H.
    destruct (guard_test eval match_pat rho (cl_guard c) s) as [[[bs|] s1]|];
      try discriminate H.
    + unfold traced in H. simpl in H. destruct (eval (bs ++ rho) (cl_body c) s1).
      injection H as <- <- <-. exists 1, [cl_body c]. simpl.
      rewrite <- app_assoc.
      repeat split; [lia | right; left; exists c; split; [left|]; reflexivity].
    + destruct (IH s1 _ v s' tr' H) as (j & tail & Hj & -> & Ht).
      exists (S j), tail. simpl. rewrite <- app_assoc. split; [lia|split].
      * reflexivity.
      * destruct Ht as [Ht|[(c' & Hin & Ht)|Ht]]; auto.
        right; left. exists c'. split; [right|]; assumption.
Qed.
End Claims.

Section ParserClaims.
Context {expr pat : Type}.

(** C6 (malformed input rejected): an input with no [$cond =>] at all (no
    non-default clause, with or without a default), or one where something
    other than a single trailing comma follows the default clause
    [_ => d], is rejected: the macro emits nothing. *)
Theorem malformed_rejected :
  forall toks : list (token expr pat),
    (forall pre c post, toks <> pre ++ TExpr c :: TArrow :: post)
    \/ (exists pre d post,
           toks = pre ++ TUnder :: TArrow :: TExpr d :: post /\
           post <> [] /\ post <> [TComma]) ->
    when toks = None.
Proof.
  intros toks Hbad. unfold when.
  destruct (parse toks) as [[cls d]|] eqn:P; [|reflexivity].
  exfalso.
  destruct (parse_sound toks cls d P) as (c & cls' & tc & _ & Ht).
  destruct Hbad as [Hno | (pre & d' & post & E & Hp1 & Hp2)].
  - subst toks. destruct c as [[e|p e] b]; simpl in Hno.
    + exact (Hno [] e _ eq_refl).
    + exact (Hno [TLet; TPat p; TEq] e _ eq_refl).
  - rewrite Ht in E. clear Ht P. unfold tail_tokens in E.
    destruct d as [e|].
    + assert (E' : pre ++ TUnder :: TArrow :: TExpr d' :: post =
                   (line_tokens c ++ flat_map (fun c => TComma :: line_tokens c) cls'
                    ++ [TComma]) ++ TUnder :: TArrow :: TExpr e ::
                   (if tc then [TComma] else [])).
      { rewrite <- E, <- !app_assoc. reflexivity. }
      apply split_at_unique in E'.
      * injection E' as _ Ep. destruct tc; [apply Hp2 | apply Hp1]; exact Ep.
      * rewrite !in_app_iff. intros [H|[H|[H|H]]];
          [exact (under_not_in_line c H) | exact (under_not_in_lines cls' H)
          | discriminate H | exact H].
      * destruct tc; simpl; intuition discriminate.
    + assert (Hin : In TUnder
                (line_tokens c ++ flat_map (fun c => TComma :: line_tokens c) cls'
                 ++ [] ++ (if tc then [TComma] else []))).
      { rewrite E. apply in_or_app. right. left. reflexivity. }
      rewrite !in_app_iff in Hin.
      destruct Hin as [H|[H|[H|H]]];
        [exact (under_not_in_line c H) | exact (under_not_in_lines cls' H)
        | exact H | destruct tc; simpl in H; intuition discriminate].
Qed.

(** C9 (trailing comma): appending a comma to an accepted input that does
    not already end with one gives an accepted input with the same clause
    list and default, hence the same emitted chain. *)
Theorem trailing_comma_neutral :
  forall (toks : list (token expr pat)) r,
    parse toks = Some r ->
    ~ (exists pre, toks = pre ++ [TComma]) ->
    parse (toks ++ [TComma]) = Some r /\ when (toks ++ [TComma]) = when toks.
Proof.
  intros toks [cls d] P Hend.
  destruct (parse_sound toks cls d P) as (c & cls' & tc & -> & Ht).
  destruct tc.
  - exfalso. apply Hend.
    exists (line_tokens c ++ tail_tokens cls' d false).
    rewrite Ht, <- app_assoc, tail_tokens_comma. reflexivity.
  - assert (P' : parse (toks ++ [TComma]) = Some (c :: cls', d)).
    { rewrite Ht, <- app_assoc, tail_tokens_comma. apply parse_complete. }
    split; [exact P'|].
    unfold when. rewrite P, P'. reflexivity.
Qed.
End ParserClaims.

(** ** Concrete runs, counterexamples and witnesses *)

Example order4_test : Mini.run Mini.order4 Mini.s0 = Some (VInt 2, Mini.s0).
Proof. reflexivity. Qed.

Example counted_test :
  Mini.run Mini.counted Mini.s0 = Some (VInt 1, (0%Z, 1%nat)).
Proof. reflexivity. Qed.

(** C4, counterexample: the §8 mixed list does not yield [1]. *)
Lemma mixed_does_not_yield_1 :
  option_map fst (Mini.run Mini.mixed Mini.s0) <> Some (VInt 1).
Proof. vm_compute. discriminate. Qed.

(** C4, as amended: clauses are tried in pure textual order whatever the
    kind of their guards.  For any host and any clause list mixing boolean
    and destructure guards, when the guards of [pre] all fail and the guard
    of [c] then succeeds, the log of the traced evaluation is exactly the
    guards of [pre] in order, then [c]'s guard, then [c]'s body, and the
    result is that body's value: nothing of [rest] or of the default runs.
    On the §8 list [false => 0, let Some(x) = None => x,
    let Some(y) = Some(12) => y + 1, true => 1, _ => 0] this gives [13]:
    the third clause matches and wins, the fourth is never tried. *)
Theorem mixed_guards_textual_order :
  (forall (expr pat store : Type) (eval : env -> expr -> store -> value * store)
          (match_pat : pat -> value -> option env)
          rho (pre : list (clause expr pat)) c rest d s s1 bs s2 tr,
     fails_all eval match_pat rho pre s = Some s1 ->
     guard_test eval match_pat rho (cl_guard c) s1 = Some (Some bs, s2) ->
     run_expansion (traced eval) match_pat rho (pre ++ c :: rest) d (s, tr)
     = let (v, s3) := eval (bs ++ rho) (cl_body c) s2 in
       Some (v, (s3, tr ++ guard_exprs pre ++ [guard_expr (cl_guard c); cl_body c])))
  /\
  run_when (traced Mini.heval) Mini.hmatch [] Mini.mixed (Mini.s0, [])
  = Some (VInt 13,
          (Mini.s0,
           [Mini.bool_lit false; Mini.none_lit; Mini.HSome (Mini.int_lit 12);
            Mini.HAdd (Mini.HVar "y") 1])).
Proof.
  split; [|vm_compute; reflexivity].
  intros expr pat store eval match_pat rho pre c rest d s s1 bs s2 tr Hpre Hc.
  rewrite run_expansion_fold,
    (run_after_failing_prefix _ _ _ _ _ _ _ _
       (fails_all_traced eval match_pat rho pre s tr s1 Hpre)).
  unfold fold_chain. cbn [fold_right wrap run_chain].
  rewrite guard_test_traced, Hc.
  unfold traced. simpl. destruct (eval (bs ++ rho) (cl_body c) s2).
  rewrite <- !app_assoc. reflexivity.
Qed.

(** C8, counterexample: an input with no default is expanded without any
    error (the expander has no notion of position), and when its guard
    fails the emitted chain yields the unit value. *)
Lemma no_default_expands_to_unit :
  when Mini.lone_false
    = Some (OIf (BooleanGuard (Mini.bool_lit false)) (Mini.int_lit 0) (OBlock None))
  /\ Mini.run Mini.lone_false Mini.s0 = Some (VUnit, Mini.s0).
Proof. split; reflexivity. Qed.

Lemma first_success_wins_witness :
  parse Mini.order4
    = Some ([Mini.bclause false 0; Mini.bclause false 1]
            ++ Mini.bclause true 2 :: [Mini.bclause true 3], None)
  /\ fails_all Mini.heval Mini.hmatch []
       [Mini.bclause false 0; Mini.bclause false 1] Mini.s0 = Some Mini.s0
  /\ guard_test Mini.heval Mini.hmatch [] (cl_guard (Mini.bclause true 2)) Mini.s0
       = Some (Some [], Mini.s0)
  /\ run_expansion Mini.heval Mini.hmatch []
       ([Mini.bclause false 0; Mini.bclause false 1]
        ++ Mini.bclause true 2 :: [Mini.bclause true 3]) None Mini.s0
     = Some (VInt 2, Mini.s0).
Proof.
  split; [reflexivity|]. split; [reflexivity|]. split; [reflexivity|].
  exact (first_success_wins Mini.heval Mini.hmatch []
           [Mini.bclause false 0; Mini.bclause false 1] (Mini.bclause true 2)
           [Mini.bclause true 3] None Mini.s0 Mini.s0 [] Mini.s0
           eq_refl eq_refl).
Defined.

Lemma guard_evaluated_at_most_once_witness :
  run_expansion (traced Mini.heval) Mini.hmatch [] Mini.counted_clauses None
    (Mini.s0, [])
  = Some (VInt 1, ((0%Z, 1%nat),
                   [Mini.bool_lit false; Mini.HCount (Mini.bool_lit true);
                    Mini.int_lit 1]))
  /\ exists j tail,
       j <= List.length Mini.counted_clauses /\
       [Mini.bool_lit false; Mini.HCount (Mini.bool_lit true); Mini.int_lit 1]
       = [] ++ guard_exprs (firstn j Mini.counted_clauses) ++ tail /\
       (tail = [] \/ (exists c, In c Mini.counted_clauses /\ tail = [cl_body c])
        \/ (exists e, @None Mini.hexpr = Some e /\ tail = [e])).
Proof.
  split; [reflexivity|].
  exact (guard_evaluated_at_most_once Mini.heval Mini.hmatch [] Mini.counted_clauses
           None Mini.s0 [] (VInt 1) (0%Z, 1%nat)
           [Mini.bool_lit false; Mini.HCount (Mini.bool_lit true); Mini.int_lit 1]
           eq_refl).
Defined.

Lemma fallback_when_all_fail_witness :
  parse Mini.default_doc = Some ([Mini.bclause false 0], Some (Mini.int_lit 1))
  /\ fails_all Mini.heval Mini.hmatch [] [Mini.bclause false 0] Mini.s0 = Some Mini.s0
  /\ run_expansion Mini.heval Mini.hmatch [] [Mini.bclause false 0]
       (Some (Mini.int_lit 1)) Mini.s0 = Some (VInt 1, Mini.s0)
  /\ run_expansion Mini.heval Mini.hmatch [] [Mini.bclause false 0] None Mini.s0
     = Some (VUnit, Mini.s0).
Proof.
  split; [reflexivity|]. split; [reflexivity|]. split.
  - exact (fallback_when_all_fail Mini.heval Mini.hmatch [] [Mini.bclause false 0]
             (Some (Mini.int_lit 1)) Mini.s0 Mini.s0 eq_refl).
  - exact (fallback_when_all_fail Mini.heval Mini.hmatch [] [Mini.bclause false 0]
             None Mini.s0 Mini.s0 eq_refl).
Defined.

Lemma destructure_binding_scope_witness :
  fails_all Mini.heval Mini.hmatch [] [] Mini.s0 = Some Mini.s0
  /\ Mini.heval [] Mini.none_lit Mini.s0 = (VNone, Mini.s0)
  /\ run_expansion Mini.heval Mini.hmatch []
       ([] ++ Mini.some_x_none :: [Mini.some_y_12]) (Some (Mini.int_lit 0)) Mini.s0
     = run_expansion Mini.heval Mini.hmatch [] [Mini.some_y_12]
         (Some (Mini.int_lit 0)) Mini.s0.
Proof.
  split; [reflexivity|]. split; [reflexivity|].
  exact (destructure_binding_scope Mini.heval Mini.hmatch [] []
           (Mini.PSome (Some "x"%string)) Mini.none_lit (Mini.HVar "x")
           [Mini.some_y_12] (Some (Mini.int_lit 0)) Mini.s0 Mini.s0 VNone Mini.s0
           eq_refl eq_refl).
Defined.

Lemma all_fail_trace_witness :
  fails_all Mini.heval Mini.hmatch [] [Mini.bclause false 0; Mini.bclause false 1]
    Mini.s0 = Some Mini.s0
  /\ run_expansion (traced Mini.heval) Mini.hmatch []
       [Mini.bclause false 0; Mini.bclause false 1] (Some (Mini.int_lit 7)) (Mini.s0, [])
     = Some (VInt 7, (Mini.s0, [Mini.bool_lit false; Mini.bool_lit false;
                                Mini.int_lit 7])).
Proof.
  split; [reflexivity|].
  exact (all_fail_trace Mini.heval Mini.hmatch []
           [Mini.bclause false 0; Mini.bclause false 1] (Some (Mini.int_lit 7))
           Mini.s0 [] Mini.s0 eq_refl).
Defined.

Lemma right_fold_expansion_witness :
  parse Mini.it_works
    = Some ([Mini.bclause false 0; Mini.bclause true 1; Mini.bclause true 2],
            Some (Mini.int_lit 42))
  /\ when Mini.it_works
     = Some (fold_right wrap (OBlock (Some (Mini.int_lit 42)))
               [Mini.bclause false 0; Mini.bclause true 1; Mini.bclause true 2]).
Proof.
  split; [reflexivity|].
  exact (proj1 (right_fold_expansion Mini.heval Mini.hmatch Mini.it_works
                  [Mini.bclause false 0; Mini.bclause true 1; Mini.bclause true 2]
                  (Some (Mini.int_lit 42)) eq_refl)).
Defined.

Lemma no_default_unit_fallback_witness :
  parse Mini.lone_false = Some ([Mini.bclause false 0], None)
  /\ when Mini.lone_false = Some (fold_chain [Mini.bclause false 0] None).
Proof.
  split; [reflexivity|].
  exact (proj1 (no_default_unit_fallback Mini.heval Mini.hmatch Mini.lone_false
                  [Mini.bclause false 0] eq_refl)).
Defined.

Lemma malformed_rejected_witness :
  Mini.default_first = [] ++ TUnder :: TArrow :: TExpr (Mini.int_lit 1)
                          :: [TComma; TExpr (Mini.bool_lit true); TArrow;
                              TExpr (Mini.int_lit 0)]
  /\ when Mini.default_first = None.
Proof.
  split; [reflexivity|].
  apply malformed_rejected. right.
  exists [], (Mini.int_lit 1),
    [TComma; TExpr (Mini.bool_lit true); TArrow; TExpr (Mini.int_lit 0)].
  split; [reflexivity|]. split; discriminate.
Defined.

Lemma trailing_comma_neutral_witness :
  parse Mini.no_def
    = Some ([Clause (BooleanGuard (Mini.bool_lit false)) (Mini.HAssign (Mini.int_lit 18));
             Clause (BooleanGuard (Mini.bool_lit true)) (Mini.HAddAssign 1)], None)
  /\ ~ (exists pre, Mini.no_def = pre ++ [TComma])
  /\ parse (Mini.no_def ++ [TComma])
     = Some ([Clause (BooleanGuard (Mini.bool_lit false)) (Mini.HAssign (Mini.int_lit 18));
              Clause (BooleanGuard (Mini.bool_lit true)) (Mini.HAddAssign 1)], None)
  /\ when (Mini.no_def ++ [TComma]) = when Mini.no_def.
Proof.
  assert (Hend : ~ (exists pre, Mini.no_def = pre ++ [TComma])).
  { intros [pre E]. apply (f_equal (fun l => last l TArrow)) in E.
    rewrite last_last in E. vm_compute in E. discriminate E. }
  split; [reflexivity|]. split; [exact Hend|].
  exact (trailing_comma_neutral Mini.no_def _ eq_refl Hend).
Defined.

(** ** Further properties of the macro *)

Section MoreParse.
Context {expr pat : Type}.

Lemma parse_tail_no_adjacent_commas :
  forall (toks : list (token expr pat)) r,
    parse_tail toks = Some r -> adjacent_commas toks = false.
Proof.
  fix IH 1. intros toks r H.
  destruct toks as [|t toks]; [reflexivity|]. simpl in H.
  crush_match H; try reflexivity;
    match goal with
    | E : parse_tail ?r = Some _ |- _ => exact (IH r _ E)
    end.
Qed.

Lemma adjacent_commas_app :
  forall (pre post : list (token expr pat)),
    adjacent_commas (pre ++ TComma :: TComma :: post) = true.
Proof.
  induction pre as [|a pre IH]; intros post; [reflexivity|].
  destruct a; try exact (IH post).
  destruct pre as [|b pre]; [reflexivity|].
  destruct b; try reflexivity; exact (IH post).
Qed.

(** The grammar of the arm, both ways: an input is accepted with clauses
    [cls] and default [d] exactly when it is one [line], then [, line] for
    each further clause, then [, _ => d] if there is a default, then at most
    one trailing comma. *)
Theorem parse_characterization :
  forall (toks : list (token expr pat)) cls d,
    parse toks = Some (cls, d) <->
    exists c cls' tc, cls = c :: cls' /\ toks = line_tokens c ++ tail_tokens cls' d tc.
Proof.
  intros toks cls d. split.
  - apply parse_sound.
  - intros (c & cls' & tc & -> & ->). apply parse_complete.
Qed.

(** Two commas in a row anywhere (an empty clause between separators, or a
    doubled trailing comma) make the macro reject the input. *)
Theorem adjacent_commas_rejected :
  forall (toks : list (token expr pat)) pre post,
    toks = pre ++ TComma :: TComma :: post -> when toks = None.
Proof.
  intros toks pre post E. unfold when.
  destruct (parse toks) as [[cls d]|] eqn:P; [|reflexivity].
  exfalso. unfold parse in P.
  pose proof (adjacent_commas_app pre post) as A. rewrite <- E in A.
  destruct toks as [|t toks]; [discriminate P|].
  crush_match P; simpl in A;
    match goal with
    | F : parse_tail ?r = Some _ |- _ =>
        rewrite (parse_tail_no_adjacent_commas r _ F) in A; discriminate A
    end.
Qed.
End MoreParse.

Section MoreSemantics.
Context {expr pat store : Type}.
Variable eval : env -> expr -> store -> value * store.
Variable match_pat : pat -> value -> option env.

(** Writing [_ => e] with an [e] that yields [()] and changes nothing
    (such as [()] itself) behaves exactly as leaving the default out: the
    transcriber's final block [{ $($def_branch)? }] is then [{ e }] or
    [{ }]. *)
Theorem unit_default_same_as_none :
  forall rho (cls : list (clause expr pat)) e s,
    (forall s', eval rho e s' = (VUnit, s')) ->
    run_expansion eval match_pat rho cls (Some e) s
    = run_expansion eval match_pat rho cls None s.
Proof.
  intros rho cls e s He.
  rewrite !run_expansion_fold, !run_fold_reference.
  revert s. induction cls as [|c cls IH]; intros s; simpl.
  - rewrite He. reflexivity.
  - destruct (guard_test eval match_pat rho (cl_guard c) s) as [[[bs|] s1]|];
      [reflexivity | apply IH | reflexivity].
Qed.

(** Nesting composes: a [when!] whose default [e] evaluates as another
    [when!] over [cls2] (with default [d]) behaves as the single [when!] over
    [cls1] followed by [cls2], with default [d]. *)
Theorem nested_default_flattens :
  forall rho (cls1 cls2 : list (clause expr pat)) d e s,
    (forall s', run_expansion eval match_pat rho cls2 d s' = Some (eval rho e s')) ->
    run_expansion eval match_pat rho cls1 (Some e) s
    = run_expansion eval match_pat rho (cls1 ++ cls2) d s.
Proof.
  intros rho cls1 cls2 d e s H.
  rewrite !run_expansion_fold, !run_fold_reference.
  revert s. induction cls1 as [|c cls1 IH]; intros s; simpl.
  - rewrite <- H, run_expansion_fold, run_fold_reference. reflexivity.
  - destruct (guard_test eval match_pat rho (cl_guard c) s) as [[[bs|] s1]|];
      [reflexivity | apply IH | reflexivity].
Qed.
End MoreSemantics.

(** The test suite of [lib.rs] ([it_works], [pattern], [mixed], [no_def]),
    run on the embedding of the macro with the [Mini] host: the values the
    tests assert, and for [no_def] the final value of [x]. *)
Theorem crate_tests_pass :
  option_map fst (Mini.run Mini.it_works Mini.s0) = Some (VInt 1) /\
  option_map fst (Mini.run Mini.pattern Mini.s0) = Some (VInt 13) /\
  option_map fst (Mini.run Mini.mixed_src Mini.s0) = Some (VInt 13) /\
  option_map (fun r => fst (snd r)) (Mini.run Mini.no_def Mini.s0) = Some 1%Z.
Proof. vm_compute. repeat split. Qed.

Lemma adjacent_commas_rejected_witness :
  Mini.it_works ++ [TComma]
    = (firstn 15 Mini.it_works) ++ TComma :: TComma :: []
  /\ when (Mini.it_works ++ [TComma]) = None.
Proof.
  split; [reflexivity|].
  exact (adjacent_commas_rejected (Mini.it_works ++ [TComma])
           (firstn 15 Mini.it_works) [] eq_refl).
Defined.

Lemma unit_default_same_as_none_witness :
  (forall s', Mini.heval [] (Mini.HLit VUnit) s' = (VUnit, s'))
  /\ run_expansion Mini.heval Mini.hmatch [] [Mini.bclause false 0]
       (Some (Mini.HLit VUnit)) Mini.s0
     = run_expansion Mini.heval Mini.hmatch [] [Mini.bclause false 0] None Mini.s0.
Proof.
  split; [intros s'; reflexivity|].
  exact (unit_default_same_as_none Mini.heval Mini.hmatch [] [Mini.bclause false 0]
           (Mini.HLit VUnit) Mini.s0 (fun s' => eq_refl)).
Defined.

Lemma nested_default_flattens_witness :
  (forall s', run_expansion Mini.heval Mini.hmatch [] [Mini.bclause false 0]
                (Some (Mini.int_lit 5)) s'
              = Some (Mini.heval [] (Mini.int_lit 5) s'))
  /\ run_expansion Mini.heval Mini.hmatch [] [Mini.bclause false 1]
       (Some (Mini.int_lit 5)) Mini.s0
     = run_expansion Mini.heval Mini.hmatch []
         ([Mini.bclause false 1] ++ [Mini.bclause false 0])
         (Some (Mini.int_lit 5)) Mini.s0.
Proof.
  split; [intros s'; reflexivity|].
  exact (nested_default_flattens Mini.heval Mini.hmatch [] [Mini.bclause false 1]
           [Mini.bclause false 0] (Some (Mini.int_lit 5)) (Mini.int_lit 5) Mini.s0
           (fun s' => eq_refl)).
Defined.

Lemma mixed_guards_textual_order_witness :
  fails_all Mini.heval Mini.hmatch [] [Mini.bclause false 0; Mini.some_x_none] Mini.s0
    = Some Mini.s0
  /\ guard_test Mini.heval Mini.hmatch [] (cl_guard Mini.some_y_12) Mini.s0
     = Some (Some [("y"%string, VInt 12)], Mini.s0)
  /\ run_expansion (traced Mini.heval) Mini.hmatch []
       ([Mini.bclause false 0; Mini.some_x_none]
        ++ Mini.some_y_12 :: [Mini.bclause true 1]) (Some (Mini.int_lit 0))
       (Mini.s0, [])
     = Some (VInt 13,
             (Mini.s0,
              [Mini.bool_lit false; Mini.none_lit; Mini.HSome (Mini.int_lit 12);
               Mini.HAdd (Mini.HVar "y") 1])).
Proof.
  split; [reflexivity|]. split; [reflexivity|].
  exact (proj1 mixed_guards_textual_order _ _ _ Mini.heval Mini.hmatch []
           [Mini.bclause false 0; Mini.some_x_none] Mini.some_y_12
           [Mini.bclause true 1] (Some (Mini.int_lit 0)) Mini.s0 Mini.s0
           [("y"%string, VInt 12)] Mini.s0 [] eq_refl eq_refl).
Defined.
